(** * StaticStateMachine: a statically constructed finite state machine

    Embedding of [src/StaticStateMachine.hpp] (and of the blinker of
    [examples/TimedStaticStateMachineEntryExxample.ino]).

    The C++ class template [StaticStateMachine<States>] keeps one field,
    [_currentState], a pointer to a member function of the implementation
    class [LogicImpl = States]; the specialisation for
    [TimedAttr<TimeType, TimeStamp>] derives from it and adds [_changeTS].
    The macros [DECLARE_STATE_MEMBER] and [DECLARE_STATE_ENTRY_MEMBER]
    generate, for each state, a nested struct with a static [state()] and a
    member function [update_<name>].

    Member functions are identified by their names, the two machine fields
    are record fields, the host clock and the log of calls, stores and host
    actions form the world the member functions run in. *)

From Stdlib Require Import ZArith Lia.
From stdpp Require Import base option strings list gmap.

(** ** Data model *)

(** A member function of [LogicImpl], by name. *)
Abbreviation member := string.

(** [typedef void (States::*Updater)()]: a pointer to a member function;
    [None] is the null pointer, which is what a selector that was never
    assigned holds in an object of static storage. *)
Definition Updater : Type := option member.

(** The second template argument: [void] for the base machine,
    [TimedAttr<R, F>] for the timed one. [R] is an unsigned integral type,
    given by its width in bits; [F] reads the host clock (see
    [Timed.TimeStamp]). *)
Inductive Attribute : Type :=
| void
| TimedAttr (R : N).

(** What a run leaves behind, oldest first: the indirect call made by
    [update()], direct calls of member functions, stores to the two
    (volatile) fields, and the actions of the host (serial output, pins). *)
Inductive Event (Action : Type) : Type :=
| Dispatch (f : member)
| Call (f : member)
| StoreState (u : Updater)
| StoreTS (t : Z)
| Host (a : Action).
Arguments Dispatch {Action} f.
Arguments Call {Action} f.
Arguments StoreState {Action} u.
Arguments StoreTS {Action} t.
Arguments Host {Action} a.

(** The object: the base-class field, the field of the timed
    specialisation (not present, and never touched, when the attribute is
    [void]) and the fields [U] the implementation class adds. *)
Record LogicImpl (U : Type) : Type := mkLogicImpl {
  _currentState : Updater;
  _changeTS : Z;
  fields : U
}.
Arguments mkLogicImpl {U} _ _ _.
Arguments _currentState {U} _.
Arguments _changeTS {U} _.
Arguments fields {U} _.

(** The object together with the host: its clock, an unbounded count of
    time units, and the log. *)
Record World (U Action : Type) : Type := mkWorld {
  this : LogicImpl U;
  clock : Z;
  trace : list (Event Action)
}.
Arguments mkWorld {U Action} _ _ _.
Arguments this {U Action} _.
Arguments clock {U Action} _.
Arguments trace {U Action} _.

Definition log {U Action} (e : Event Action) (w : World U Action) : World U Action :=
  mkWorld (this w) (clock w) (trace w ++ [e]).

(** The host lets [d] time units pass. *)
Definition elapse {U Action} (d : Z) (w : World U Action) : World U Action :=
  mkWorld (this w) (clock w + d)%Z (trace w).

(** ** The nested state structs *)

Module State.
(** [S::state()] of the struct [S] generated by either macro:
    [return &LogicImpl::update_ ## S]. *)
Definition state (s : string) : Updater := Some ("update_" +:+ s).
End State.

(** ** StaticStateMachine<States> *)

Module Base.
Section Members.
Context {U Action : Type}.
Implicit Type w : World U Action.

Definition state w : Updater := _currentState (this w).

Definition isState (s : string) w : bool :=
  bool_decide (_currentState (this w) = State.state s).

Definition changeState (s : string) w : World U Action :=
  log (StoreState (State.state s))
      (mkWorld (mkLogicImpl (State.state s) (_changeTS (this w)) (fields (this w)))
               (clock w) (trace w)).
End Members.
End Base.

(** ** StaticStateMachine<States, TimedAttr<TimeType, TimeStamp>> *)

Module Timed.
Section Members.
Context {U Action : Type}.
Variable R : N.
Implicit Type w : World U Action.

(** Values of the unsigned [R]-bit [TimeType] are the integers below
    [modulus]. *)
Definition modulus : Z := 2 ^ Z.of_N R.

(** The time source [F]: the host clock, as an [R]-bit unsigned value. *)
Definition TimeStamp w : Z := clock w mod modulus.

(** [return TimeStamp() - _changeTS;] in [TimeType]. *)
Definition stateElapsed w : Z := (TimeStamp w - _changeTS (this w)) mod modulus.

(** [_changeTS = TimeStamp(); StaticStateMachine<States>::changeState<S>();] *)
Definition changeState (s : string) w : World U Action :=
  let t := TimeStamp w in
  Base.changeState s
    (log (StoreTS t)
         (mkWorld (mkLogicImpl (_currentState (this w)) t (fields (this w)))
                  (clock w) (trace w))).
End Members.
End Timed.

(** ** Member functions of the implementation class *)

(** The body of a member function of [LogicImpl]: a terminating program
    over the members it inherits ([changeState], [isState], [state],
    [stateElapsed]), its own fields, direct calls of its own member
    functions (with the callee's body) and host actions. A state body does
    not call [update()] itself: one dispatch is in flight at a time. *)
Inductive Prog (U Action : Type) : Type :=
| Return
| ChangeState (s : string) (k : Prog U Action)
| IsState (s : string) (k : bool -> Prog U Action)
| GetState (k : Updater -> Prog U Action)
| StateElapsed (k : Z -> Prog U Action)
| CallMember (f : member) (body : Prog U Action) (k : Prog U Action)
| ReadFields (k : U -> Prog U Action)
| WriteFields (u : U) (k : Prog U Action)
| HostAction (a : Action) (k : Prog U Action).
Arguments Return {U Action}.
Arguments ChangeState {U Action} s k.
Arguments IsState {U Action} s k.
Arguments GetState {U Action} k.
Arguments StateElapsed {U Action} k.
Arguments CallMember {U Action} f body k.
Arguments ReadFields {U Action} k.
Arguments WriteFields {U Action} u k.
Arguments HostAction {U Action} a k.

Section Exec.
Context {U Action : Type}.
Implicit Type w : World U Action.
Implicit Type p : Prog U Action.

(** An unqualified [changeState<S>()] inside a member function of
    [LogicImpl] names the one of the class [LogicImpl] derives from: the
    timed specialisation hides the base member. *)
Definition changeState (attr : Attribute) (s : string) w : World U Action :=
  match attr with
  | void => Base.changeState s w
  | TimedAttr R => Timed.changeState R s w
  end.

(** Running a body. [None]: the body uses [stateElapsed()], which a
    machine without the timed attribute does not have. *)
Fixpoint exec (attr : Attribute) p w : option (World U Action) :=
  match p with
  | Return => Some w
  | ChangeState s k => exec attr k (changeState attr s w)
  | IsState s k => exec attr (k (Base.isState s w)) w
  | GetState k => exec attr (k (Base.state w)) w
  | StateElapsed k =>
      match attr with
      | void => None
      | TimedAttr R => exec attr (k (Timed.stateElapsed R w)) w
      end
  | CallMember f body k =>
      match exec attr body (log (Call f) w) with
      | Some w' => exec attr k w'
      | None => None
      end
  | ReadFields k => exec attr (k (fields (this w))) w
  | WriteFields u k =>
      exec attr k (mkWorld (mkLogicImpl (_currentState (this w)) (_changeTS (this w)) u)
                           (clock w) (trace w))
  | HostAction a k => exec attr k (log (Host a) w)
  end.

(** ** The declaration macros *)

(** One use of [DECLARE_STATE_MEMBER(name)] or of
    [DECLARE_STATE_ENTRY_MEMBER(to, name)], with the body that follows it
    (or that [DEFINE_STATE_MEMBER] / [DEFINE_STATE_ENTRY_MEMBER] gives out
    of class): the body of [update_name], respectively of
    [enter_to_name]. *)
Inductive Decl : Type :=
| DECLARE_STATE_MEMBER (name : string) (body : Prog U Action)
| DECLARE_STATE_ENTRY_MEMBER (to name : string) (body : Prog U Action).

(** The nested struct a declaration generates: [name], or
    [to ## _ ## name]. *)
Definition struct_name (d : Decl) : string :=
  match d with
  | DECLARE_STATE_MEMBER name _ => name
  | DECLARE_STATE_ENTRY_MEMBER to name _ => to +:+ "_" +:+ name
  end.

(** The body of the step function [update_ ## struct_name]: the user's
    for a state; for an entry state the generated
    [changeState<to>(); enter_to_name();]. *)
Definition update_body (d : Decl) : Prog U Action :=
  match d with
  | DECLARE_STATE_MEMBER _ body => body
  | DECLARE_STATE_ENTRY_MEMBER to name body =>
      ChangeState to (CallMember ("enter_" +:+ to +:+ "_" +:+ name) body Return)
  end.

Definition step_function (d : Decl) : member * Prog U Action :=
  ("update_" +:+ struct_name d, update_body d).

(** The step functions of a class, by member name. *)
Definition members (cls : list Decl) : gmap member (Prog U Action) :=
  list_to_map (step_function <$> cls).

Definition declared (cls : list Decl) (s : string) : Prop :=
  s ∈ struct_name <$> cls.

(** What the compiler checks in a body: the template argument of
    [changeState<S>] and of [isState<S>] is a struct of the class (it
    needs [S::state()]), and [stateElapsed()] exists. *)
Fixpoint well_formed (attr : Attribute) (cls : list Decl) p : Prop :=
  match p with
  | Return => True
  | ChangeState s k => declared cls s ∧ well_formed attr cls k
  | IsState s k => declared cls s ∧ ∀ b, well_formed attr cls (k b)
  | GetState k => ∀ u, well_formed attr cls (k u)
  | StateElapsed k => attr ≠ void ∧ ∀ t, well_formed attr cls (k t)
  | CallMember _ body k => well_formed attr cls body ∧ well_formed attr cls k
  | ReadFields k => ∀ u, well_formed attr cls (k u)
  | WriteFields _ k => well_formed attr cls k
  | HostAction _ k => well_formed attr cls k
  end.

(** The class compiles: no struct is declared twice and every step
    function is well formed. *)
Definition compiles (attr : Attribute) (cls : list Decl) : Prop :=
  NoDup (struct_name <$> cls) ∧
  Forall (λ d, well_formed attr cls (update_body d)) cls.

(** [update()]: [(t.*t._currentState)()] with [t] the object as a
    [LogicImpl]. Calling through a null selector, or through one that is
    no step function of the class, is undefined: [None]. *)
Definition update (attr : Attribute) (cls : list Decl) w : option (World U Action) :=
  match _currentState (this w) with
  | None => None
  | Some f =>
      match members cls !! f with
      | None => None
      | Some body => exec attr body (log (Dispatch f) w)
      end
  end.

(** The host loop: one [update()] per iteration, the host clock advancing
    by the next element of [ticks] after each. *)
Fixpoint loop (attr : Attribute) (cls : list Decl) (ticks : list Z) w
  : option (World U Action) :=
  match ticks with
  | [] => Some w
  | d :: ticks' =>
      match update attr cls w with
      | Some w' => loop attr cls ticks' (elapse d w')
      | None => None
      end
  end.

End Exec.

(** The current selector is that of a struct of the class. *)
Definition valid {U Action} (cls : list (@Decl U Action)) (w : World U Action) : Prop :=
  ∃ s, declared cls s ∧ _currentState (this w) = State.state s.

(** [changeState<S>()] called once per element of [ds], with no [update()]
    in between; before each call the host lets that many time units
    pass. *)
Definition repeatedly {U Action} (attr : Attribute) (s : string) (ds : list Z)
  (w : World U Action) : World U Action :=
  foldl (λ w d, changeState attr s (elapse d w)) w ds.

(** ** Reading the log *)

(** The step functions [update()] called, oldest first. *)
Definition dispatches {Action} (evs : list (Event Action)) : list member :=
  omap (λ e, match e with Dispatch f => Some f | _ => None end) evs.

(** The values stored to [_currentState], oldest first. *)
Definition stores {Action} (evs : list (Event Action)) : list Updater :=
  omap (λ e, match e with StoreState u => Some u | _ => None end) evs.

(** The values stored to [_changeTS], oldest first. *)
Definition stamps {Action} (evs : list (Event Action)) : list Z :=
  omap (λ e, match e with StoreTS t => Some t | _ => None end) evs.

(** Going from [w] to [w'] added [evs] to the log and nothing else
    happened: no dispatch, the clock stood still, and the two machine
    fields hold what was stored to them last. *)
Definition effect {U Action} (evs : list (Event Action)) (w w' : World U Action) : Prop :=
  trace w' = trace w ++ evs ∧
  dispatches evs = [] ∧
  clock w' = clock w ∧
  _currentState (this w') = default (_currentState (this w)) (last (stores evs)) ∧
  _changeTS (this w') = default (_changeTS (this w)) (last (stamps evs)).

(** What one [changeState<S>()] of a machine with attribute [attr] adds
    to the log when the clock reads [c]. *)
Definition transition {Action} (attr : Attribute) (s : string) (c : Z)
  : list (Event Action) :=
  match attr with
  | void => [StoreState (State.state s)]
  | TimedAttr R => [StoreTS (c mod Timed.modulus R); StoreState (State.state s)]
  end.

(** ** The blinker of the example sketch *)

Module Blinker.

(** The calls into the Arduino core the sketch makes. *)
Inductive Arduino : Type :=
| Serial_print (s : string)
| Serial_println (s : string)
| Serial_println_ulong (n : Z)
| pinMode_OUTPUT (pin : Z)
| digitalWrite (pin : Z) (high : bool).

Definition builtin_led_pin : Z := 13.
Definition on_time : Z := 300.
Definition off_time : Z := 700.

(** [TimedAttr<unsigned long, millis>], [unsigned long] of 32 bits. *)
Definition attr : Attribute := TimedAttr 32.

Definition update_on : Prog unit Arduino :=
  StateElapsed (λ e,
    if (on_time <? e)%Z then
      HostAction (Serial_print "Time elapsed in on state: ")
        (StateElapsed (λ e',
           HostAction (Serial_println_ulong e')
             (ChangeState "off_" Return)))
    else Return).

Definition update_off : Prog unit Arduino :=
  StateElapsed (λ e,
    if (off_time <? e)%Z then
      HostAction (Serial_print "Time elapsed in off state: ")
        (StateElapsed (λ e',
           HostAction (Serial_println_ulong e')
             (ChangeState "on_" Return)))
    else Return).

Definition enter_on_init : Prog unit Arduino :=
  HostAction (Serial_println "on_init state")
    (HostAction (pinMode_OUTPUT builtin_led_pin)
       (ChangeState "on_" Return)).

Definition enter_on_ : Prog unit Arduino :=
  HostAction (Serial_println "on_ state")
    (HostAction (digitalWrite builtin_led_pin true) Return).

Definition enter_off_ : Prog unit Arduino :=
  HostAction (Serial_println "off_ state")
    (HostAction (digitalWrite builtin_led_pin false) Return).

Definition BlinkerImpl : list (@Decl unit Arduino) :=
  [ DECLARE_STATE_MEMBER "on" update_on;
    DECLARE_STATE_MEMBER "off" update_off;
    DECLARE_STATE_ENTRY_MEMBER "on" "init" enter_on_init;
    DECLARE_STATE_ENTRY_MEMBER "on" "" enter_on_;
    DECLARE_STATE_ENTRY_MEMBER "off" "" enter_off_ ].

(** The global [blinker] before its constructor ran: zero-initialised,
    the host clock at [c]. *)
Definition zeroed (c : Z) : World unit Arduino :=
  mkWorld (mkLogicImpl None 0 ()) c [].

(** [BlinkerImpl() { changeState<on_init>(); }] *)
Definition blinker (c : Z) : World unit Arduino :=
  changeState attr "on_init" (zeroed c).

End Blinker.

(** ** Calls from outside *)

(** What the code that owns the machine object does with it: [update()]
    from its loop, [changeState<S>()] from outside a step function
    (possible, though the header advises against it), the same through a
    reference to the base class, and letting time pass. *)
Inductive HostCall : Type :=
| call_update
| call_changeState (s : string)
| call_base_changeState (s : string)
| wait (d : Z).

Fixpoint drive {U Action} (attr : Attribute) (cls : list (@Decl U Action))
  (calls : list HostCall) (w : World U Action) : option (World U Action) :=
  match calls with
  | [] => Some w
  | call_update :: calls' =>
      match update attr cls w with
      | Some w' => drive attr cls calls' w'
      | None => None
      end
  | call_changeState s :: calls' => drive attr cls calls' (changeState attr s w)
  | call_base_changeState s :: calls' => drive attr cls calls' (Base.changeState s w)
  | wait d :: calls' => drive attr cls calls' (elapse d w)
  end.

(** The template arguments of the [changeState] calls made from
    outside. *)
Definition targets (calls : list HostCall) : list string :=
  omap (λ c, match c with
             | call_changeState s | call_base_changeState s => Some s
             | _ => None
             end) calls.

(** The time stamps a body's transitions store: none on a base machine,
    the reading [c] of the clock once per transition on a timed one. *)
Definition stamps_of (attr : Attribute) (c : Z) (us : list Updater) : list Z :=
  match attr with
  | void => []
  | TimedAttr R => (λ _, c mod Timed.modulus R)%Z <$> us
  end.

(** Going from [w] to [w'] added [evs], and the events are stamped: one
    store of the clock's reading per transition on a timed machine, none
    on a base machine. *)
Definition stamped {U Action} (attr : Attribute) (evs : list (Event Action))
  (w w' : World U Action) : Prop :=
  effect evs w w' ∧ stamps evs = stamps_of attr (clock w) (stores evs).

(** The level the sketch wrote last to the LED pin, if it wrote any. *)
Definition led (evs : list (Event Blinker.Arduino)) : option bool :=
  last (omap (λ e, match e with
                   | Host (Blinker.digitalWrite pin high) =>
                       if bool_decide (pin = Blinker.builtin_led_pin) then Some high
                       else None
                   | _ => None
                   end) evs).

(** Where the blinker is between two iterations of [loop()] once the
    first has run: in one of the two entry states, or in [on] with the LED
    lit, or in [off] with the LED dark. *)
Definition blinker_inv (w : World unit Blinker.Arduino) : Prop :=
  _currentState (this w) = State.state "on_" ∨
  _currentState (this w) = State.state "off_" ∨
  (_currentState (this w) = State.state "on" ∧ led (trace w) = Some true) ∨
  (_currentState (this w) = State.state "off" ∧ led (trace w) = Some false).

(** ** A base machine *)

(** A machine without attribute, in the shape of the header's usage
    example: two states, [first_state] forward declared and defined out of
    class. The header leaves the bodies open; here the first state moves
    on to the second, which stays. *)
Module MyFSMImpl.

Definition update_first_state : Prog unit Empty_set :=
  ChangeState "second_state" Return.

Definition update_second_state : Prog unit Empty_set := Return.

Definition MyFSMImpl : list (@Decl unit Empty_set) :=
  [ DECLARE_STATE_MEMBER "first_state" update_first_state;
    DECLARE_STATE_MEMBER "second_state" update_second_state ].

(** An object of static storage, before any state was set. *)
Definition zeroed (c : Z) : World unit Empty_set :=
  mkWorld (mkLogicImpl None 0 ()) c [].

End MyFSMImpl.

(** * Properties *)

(** ** Selectors *)

(** Two structs have the same selector only if they are the same struct:
    pointers to different member functions compare unequal. *)
Lemma state_inj (s t : string) : State.state s = State.state t → s = t.
Proof.
  unfold State.state. intros H. apply (inj Some) in H.
  by apply (inj (String.append "update_")) in H.
Qed.

Lemma isState_true_iff {U Action} (s : string) (w : World U Action) :
  Base.isState s w = true ↔ _currentState (this w) = State.state s.
Proof. unfold Base.isState. by rewrite bool_decide_eq_true. Qed.

Lemma isState_false_iff {U Action} (s : string) (w : World U Action) :
  Base.isState s w = false ↔ _currentState (this w) ≠ State.state s.
Proof. unfold Base.isState. by rewrite bool_decide_eq_false. Qed.

(** ** The log *)

Section LogFacts.
Context {Action : Type}.
Implicit Type evs : list (Event Action).

Lemma dispatches_app evs1 evs2 :
  dispatches (evs1 ++ evs2) = dispatches evs1 ++ dispatches evs2.
Proof. apply omap_app. Qed.

Lemma stores_app evs1 evs2 : stores (evs1 ++ evs2) = stores evs1 ++ stores evs2.
Proof. apply omap_app. Qed.

Lemma stamps_app evs1 evs2 : stamps (evs1 ++ evs2) = stamps evs1 ++ stamps evs2.
Proof. apply omap_app. Qed.

(** The last element of a concatenation, with a default for the empty
    list. *)
Lemma default_last_app {A} (x : A) (l1 l2 : list A) :
  default x (last (l1 ++ l2)) = default (default x (last l1)) (last l2).
Proof.
  destruct l2 as [|y l2 _] using rev_ind.
  - by rewrite app_nil_r.
  - by rewrite app_assoc, !last_snoc.
Qed.

End LogFacts.

(** ** Transitions *)

Section ChangeStateFacts.
Context {U Action : Type}.
Implicit Type w : World U Action.

Lemma modulus_pos R : (0 < Timed.modulus R)%Z.
Proof. unfold Timed.modulus. apply Z.pow_pos_nonneg; lia. Qed.

Lemma changeState_selector attr s w :
  _currentState (this (changeState attr s w)) = State.state s.
Proof. by destruct attr. Qed.

Lemma changeState_fields attr s w :
  fields (this (changeState attr s w)) = fields (this w).
Proof. by destruct attr. Qed.

Lemma changeState_clock attr s w : clock (changeState attr s w) = clock w.
Proof. by destruct attr. Qed.

Lemma changeState_trace attr s w :
  trace (changeState attr s w) = trace w ++ transition attr s (clock w).
Proof.
  destruct attr; simpl; [done|].
  by rewrite <- app_assoc.
Qed.

Lemma changeState_stamp attr s w :
  _changeTS (this (changeState attr s w)) =
  default (_changeTS (this w)) (last (stamps (transition (Action:=Action) attr s (clock w)))).
Proof. by destruct attr. Qed.

Lemma transition_dispatches attr s c :
  dispatches (transition (Action:=Action) attr s c) = [].
Proof. by destruct attr. Qed.

Lemma transition_stores attr s c :
  stores (transition (Action:=Action) attr s c) = [State.state s].
Proof. by destruct attr. Qed.

End ChangeStateFacts.

(** ** Running a body *)

Section ExecFacts.
Context {U Action : Type}.
Implicit Type w : World U Action.
Implicit Type p : Prog U Action.
Implicit Type cls : list (@Decl U Action).

Lemma effect_refl w : effect [] w w.
Proof. unfold effect. by rewrite app_nil_r. Qed.

Lemma effect_trans evs1 evs2 w1 w2 w3 :
  effect evs1 w1 w2 → effect evs2 w2 w3 → effect (evs1 ++ evs2) w1 w3.
Proof.
  intros (Ht1 & Hd1 & Hc1 & Hs1 & Hx1) (Ht2 & Hd2 & Hc2 & Hs2 & Hx2).
  unfold effect.
  rewrite dispatches_app, stores_app, stamps_app, !default_last_app.
  rewrite Ht2, Ht1, Hd1, Hd2, Hc2, Hc1, Hs2, Hs1, Hx2, Hx1.
  by rewrite app_assoc.
Qed.

Lemma effect_changeState attr s w :
  effect (transition attr s (clock w)) w (changeState attr s w).
Proof.
  unfold effect.
  rewrite changeState_trace, transition_dispatches, transition_stores,
    changeState_clock, changeState_selector, <- changeState_stamp.
  done.
Qed.

Lemma effect_Call f w : effect [Call f] w (log (Call f) w).
Proof. done. Qed.

Lemma effect_Host a w : effect [Host a] w (log (Host a) w).
Proof. done. Qed.

Lemma effect_WriteFields u w :
  effect [] w (mkWorld (mkLogicImpl (_currentState (this w)) (_changeTS (this w)) u)
                       (clock w) (trace w)).
Proof. unfold effect. simpl. by rewrite app_nil_r. Qed.

(** A body only appends to the log, dispatches nothing, and leaves in the
    two machine fields what its last [changeState] stored. *)
Lemma exec_effect attr p :
  ∀ w w', exec attr p w = Some w' → ∃ evs, effect evs w w'.
Proof.
  induction p as [|s k IH|s k IH|k IH|k IH|f body IHb k IHk|k IH|u k IH|a k IH];
    intros w w' Hx; simpl in Hx.
  - injection Hx as <-. exists []. apply effect_refl.
  - apply IH in Hx as [evs He]. eexists.
    eapply effect_trans; [apply effect_changeState | exact He].
  - by apply IH in Hx.
  - by apply IH in Hx.
  - destruct attr as [|R]; [done|]. by apply IH in Hx.
  - destruct (exec attr body (log (Call f) w)) as [w1|] eqn:Hb; [|done].
    apply IHb in Hb as [evs1 He1]. apply IHk in Hx as [evs2 He2].
    eexists. eapply effect_trans; [|exact He2].
    eapply effect_trans; [apply effect_Call | exact He1].
  - by apply IH in Hx.
  - apply IH in Hx as [evs He]. exists evs.
    change evs with ([] ++ evs).
    eapply effect_trans; [apply effect_WriteFields | exact He].
  - apply IH in Hx as [evs He]. eexists.
    eapply effect_trans; [apply effect_Host | exact He].
Qed.

(** A well-formed body returns. *)
Lemma exec_total attr cls p :
  ∀ w, well_formed attr cls p → is_Some (exec attr p w).
Proof.
  induction p as [|s k IH|s k IH|k IH|k IH|f body IHb k IHk|k IH|u k IH|a k IH];
    intros w Hwf; simpl in *.
  - by eexists.
  - apply IH, Hwf.
  - apply IH, Hwf.
  - apply IH, Hwf.
  - destruct Hwf as [Hattr Hwf]. destruct attr as [|R]; [done|]. apply IH, Hwf.
  - destruct Hwf as [Hb Hk].
    destruct (IHb (log (Call f) w) Hb) as [w1 ->]. by apply IHk.
  - apply IH, Hwf.
  - apply IH, Hwf.
  - apply IH, Hwf.
Qed.

(** A well-formed body leaves the selector of a declared struct. *)
Lemma exec_valid attr cls p :
  ∀ w w', well_formed attr cls p → valid cls w → exec attr p w = Some w' →
          valid cls w'.
Proof.
  induction p as [|s k IH|s k IH|k IH|k IH|f body IHb k IHk|k IH|u k IH|a k IH];
    intros w w' Hwf Hv Hx; simpl in *.
  - by injection Hx as <-.
  - destruct Hwf as [Hs Hk]. eapply IH; [exact Hk| |exact Hx].
    exists s. by rewrite changeState_selector.
  - eapply IH; [apply Hwf|exact Hv|exact Hx].
  - eapply IH; [apply Hwf|exact Hv|exact Hx].
  - destruct attr as [|R]; [done|]. eapply IH; [apply Hwf|exact Hv|exact Hx].
  - destruct Hwf as [Hb Hk].
    destruct (exec attr body (log (Call f) w)) as [w1|] eqn:Hb1; [|done].
    eapply IHk; [exact Hk| |exact Hx].
    eapply IHb; [exact Hb| |exact Hb1]. exact Hv.
  - eapply IH; [apply Hwf|exact Hv|exact Hx].
  - eapply IH; [apply Hwf| |exact Hx]. exact Hv.
  - eapply IH; [apply Hwf| |exact Hx]. exact Hv.
Qed.

End ExecFacts.

(** ** Dispatch *)

Section UpdateFacts.
Context {U Action : Type}.
Implicit Type w : World U Action.
Implicit Type cls : list (@Decl U Action).

(** In a class that compiles, [update_ ## S] is the step function the
    declaration of [S] generated. *)
Lemma members_lookup cls d :
  NoDup (struct_name <$> cls) → d ∈ cls →
  members cls !! ("update_" +:+ struct_name d) = Some (update_body d).
Proof.
  intros Hnd Hd. unfold members. apply elem_of_list_to_map_1.
  - rewrite <- list_fmap_compose.
    change (fst ∘ step_function) with (String.append "update_" ∘ @struct_name U Action).
    rewrite list_fmap_compose. by apply (NoDup_fmap_2 _).
  - change (_, _) with (step_function d). by apply list_elem_of_fmap_2.
Qed.

Lemma declared_decl cls s : declared cls s ↔ ∃ d, d ∈ cls ∧ struct_name d = s.
Proof.
  unfold declared. rewrite list_elem_of_fmap. split.
  - intros (d & -> & Hd). by exists d.
  - intros (d & Hd & <-). by exists d.
Qed.

(** [update()] runs the step function of the current state, after
    logging the dispatch. *)
Lemma update_step attr cls d w :
  compiles attr cls → d ∈ cls →
  _currentState (this w) = State.state (struct_name d) →
  update attr cls w =
  exec attr (update_body d) (log (Dispatch ("update_" +:+ struct_name d)) w).
Proof.
  intros [Hnd _] Hd Hcur. unfold update, State.state in *. rewrite Hcur.
  by rewrite (members_lookup cls d).
Qed.

Lemma update_total attr cls w :
  compiles attr cls → valid cls w →
  ∃ w', update attr cls w = Some w' ∧ valid cls w'.
Proof.
  intros Hc (s & Hs & Hcur).
  apply declared_decl in Hs as (d & Hd & <-).
  rewrite (update_step attr cls d) by done.
  assert (Hwf : well_formed attr cls (update_body d)).
  { destruct Hc as [_ Hall]. rewrite Forall_forall in Hall. by apply Hall. }
  destruct (exec_total attr cls (update_body d)
              (log (Dispatch ("update_" +:+ struct_name d)) w) Hwf) as [w' Hx].
  exists w'. split; [done|].
  eapply exec_valid; [exact Hwf| |exact Hx].
  exists (struct_name d). split; [|done]. apply declared_decl. eauto.
Qed.

Lemma loop_total attr cls ticks :
  compiles attr cls → ∀ w, valid cls w →
  ∃ w', loop attr cls ticks w = Some w' ∧ valid cls w'.
Proof.
  intros Hc. induction ticks as [|d ticks IH]; intros w Hv; simpl.
  - eauto.
  - destruct (update_total attr cls w Hc Hv) as (w1 & -> & Hv1).
    apply IH. exact Hv1.
Qed.

(** One [update()] runs the step function of the current state to its
    end and makes one dispatch: that of this step function. *)
Lemma update_runs_step attr cls d w :
  compiles attr cls → d ∈ cls →
  _currentState (this w) = State.state (struct_name d) →
  ∃ w', update attr cls w = Some w' ∧
        exec attr (update_body d) (log (Dispatch ("update_" +:+ struct_name d)) w)
          = Some w' ∧
        dispatches (trace w') = dispatches (trace w) ++ ["update_" +:+ struct_name d].
Proof.
  intros Hc Hd Hcur.
  destruct (update_total attr cls w Hc) as (w' & Hu & _).
  { exists (struct_name d). split; [|done]. apply declared_decl. eauto. }
  exists w'. split; [done|].
  rewrite (update_step attr cls d) in Hu by done. split; [done|].
  apply exec_effect in Hu as (evs & Ht & Hnd & _).
  rewrite Ht. simpl. rewrite !dispatches_app, Hnd. simpl.
  by rewrite app_nil_r.
Qed.

End UpdateFacts.

(** ** Elapsed time *)

Section TimedFacts.
Context {U Action : Type}.
Implicit Type w : World U Action.

Lemma TimeStamp_range R w : (0 ≤ Timed.TimeStamp R w < Timed.modulus R)%Z.
Proof. apply Z.mod_pos_bound, modulus_pos. Qed.

Lemma stateElapsed_range R w : (0 ≤ Timed.stateElapsed R w < Timed.modulus R)%Z.
Proof. apply Z.mod_pos_bound, modulus_pos. Qed.

(** Time passing changes nothing in the object. *)
Lemma this_elapse d w : this (elapse d w) = this w.
Proof. done. Qed.

(** The elapsed time, [d] units after the time stamp was taken. *)
Lemma stateElapsed_elapse R d w :
  _changeTS (this w) = Timed.TimeStamp R w →
  Timed.stateElapsed R (elapse d w) = (d mod Timed.modulus R)%Z.
Proof.
  intros Hts. unfold Timed.stateElapsed, Timed.TimeStamp in *. simpl.
  rewrite Hts, <- Zminus_mod. f_equal. lia.
Qed.

Lemma stateElapsed_changeState R s w :
  Timed.stateElapsed R (Timed.changeState R s w) = 0%Z.
Proof.
  unfold Timed.stateElapsed, Timed.TimeStamp. simpl.
  unfold Timed.TimeStamp. rewrite Z.sub_diag. apply Z.mod_0_l.
  pose proof (modulus_pos R). lia.
Qed.

End TimedFacts.

(** ** Struct names *)

Lemma length_append (s1 s2 : string) :
  String.length (s1 +:+ s2) = String.length s1 + String.length s2.
Proof.
  induction s1 as [|a s1 IH]; [done|].
  change (String a s1 +:+ s2) with (String a (s1 +:+ s2)). simpl. by rewrite IH.
Qed.

(** The struct of an entry state is not the struct of its target. *)
Lemma entry_struct_ne (to name : string) : to ≠ to +:+ "_" +:+ name.
Proof.
  intros Heq. apply (f_equal String.length) in Heq.
  rewrite !length_append in Heq. simpl in Heq. lia.
Qed.

(** ** The blinker compiles *)

Lemma BlinkerImpl_compiles : compiles Blinker.attr Blinker.BlinkerImpl.
Proof.
  split.
  - apply (bool_decide_unpack _). by vm_compute.
  - assert (Hd : ∀ s, bool_decide (s ∈ ["on"; "off"; "on_init"; "on_"; "off_"]) = true →
                      declared Blinker.BlinkerImpl s).
    { intros s Hs. by apply bool_decide_eq_true in Hs. }
    repeat constructor; try discriminate; try (by apply Hd);
      intros e; simpl.
    + destruct (Blinker.on_time <? e)%Z; simpl; [|done].
      repeat split; try discriminate. by apply Hd.
    + destruct (Blinker.off_time <? e)%Z; simpl; [|done].
      repeat split; try discriminate. by apply Hd.
Qed.

(** * The specified behaviour *)

(** C1: immediately after [changeState<S>()], [isState<S>()] returns true
    and [isState<T>()] returns false for every other struct [T]; whichever
    [changeState] the attribute selects. *)
Theorem changeState_isState {U Action} (attr : Attribute) (s : string)
    (w : World U Action) :
  Base.isState s (changeState attr s w) = true ∧
  ∀ t, t ≠ s → Base.isState t (changeState attr s w) = false.
Proof.
  split.
  - apply isState_true_iff, changeState_selector.
  - intros t Hne. apply isState_false_iff.
    rewrite changeState_selector. intros Heq. by apply state_inj in Heq.
Qed.

Lemma changeState_isState_witness :
  Base.isState "on" (changeState void "on" (Blinker.zeroed 0)) = true ∧
  Base.isState "off" (changeState void "on" (Blinker.zeroed 0)) = false.
Proof.
  destruct (changeState_isState void "on" (Blinker.zeroed 0)) as [Hs Ht].
  split; [exact Hs | apply Ht; discriminate].
Defined.

(** C5: when the transition was stamped at [t] and the time source now
    returns [(t + d) mod 2^R], with [d] below the modulus of the time type,
    [stateElapsed()] returns [d], also when the time value wrapped in
    between. *)
Theorem stateElapsed_wraparound {U Action} (R : N) (w : World U Action) (t d : Z) :
  (0 ≤ t < Timed.modulus R)%Z →
  (0 ≤ d < Timed.modulus R)%Z →
  _changeTS (this w) = t →
  Timed.TimeStamp R w = ((t + d) mod Timed.modulus R)%Z →
  Timed.stateElapsed R w = d.
Proof.
  intros Ht Hd Hts Hnow. unfold Timed.stateElapsed.
  rewrite Hnow, Hts, Zminus_mod_idemp_l.
  replace (t + d - t)%Z with d by lia. by apply Z.mod_small.
Qed.

(** Stamped 100 units before the 32-bit value wraps, read 200 units after
    it wrapped. *)
Lemma stateElapsed_wraparound_witness :
  Timed.stateElapsed 32
    (mkWorld (mkLogicImpl (State.state "on") 4294967196 ()) 4294967496
             (@nil (Event Blinker.Arduino))) = 300%Z.
Proof.
  apply (stateElapsed_wraparound 32 _ 4294967196 300); vm_compute;
    first [done | split; congruence].
Defined.

(** C10: the base-class [changeState<S>()], called on a timed machine,
    assigns the selector and leaves the time stamp, hence the elapsed time,
    as they were. *)
Theorem base_changeState_keeps_stamp {U Action} (R : N) (s : string)
    (w : World U Action) :
  _currentState (this (Base.changeState s w)) = State.state s ∧
  _changeTS (this (Base.changeState s w)) = _changeTS (this w) ∧
  stamps (trace (Base.changeState s w)) = stamps (trace w) ∧
  Timed.stateElapsed R (Base.changeState s w) = Timed.stateElapsed R w.
Proof.
  repeat split. unfold Base.changeState. simpl.
  rewrite stamps_app. simpl. apply app_nil_r.
Qed.

(** C9: [changeState<S>()] of the base class changes the selector and no
    other field; the one of the timed class changes the selector and the
    time stamp and no other field; neither moves the clock, and they add
    to the log their own stores only. [isState<S>()] leaves the world as
    it is. *)
Theorem changeState_frame {U Action} (attr : Attribute) (R : N) (s : string)
    (w : World U Action) :
  (this (Base.changeState s w) =
     mkLogicImpl (State.state s) (_changeTS (this w)) (fields (this w)) ∧
   clock (Base.changeState s w) = clock w ∧
   trace (Base.changeState s w) = trace w ++ [StoreState (State.state s)]) ∧
  (this (Timed.changeState R s w) =
     mkLogicImpl (State.state s) (Timed.TimeStamp R w) (fields (this w)) ∧
   clock (Timed.changeState R s w) = clock w ∧
   trace (Timed.changeState R s w) =
     trace w ++ [StoreTS (Timed.TimeStamp R w); StoreState (State.state s)]) ∧
  exec attr (IsState s (λ _, Return)) w = Some w.
Proof.
  repeat split. unfold Timed.changeState, Base.changeState. simpl.
  by rewrite <- app_assoc.
Qed.

(** C3 as stated fails for a duration the time type cannot hold: 2^32
    units after a transition of the 32-bit blinker, [stateElapsed()] is
    back at 0. *)
Lemma stateElapsed_full_period_counterexample :
  Timed.stateElapsed 32
    (elapse (2 ^ 32) (Timed.changeState 32 "on" (Blinker.zeroed 5))) = 0%Z ∧
  Timed.stateElapsed 32
    (elapse (2 ^ 32) (Timed.changeState 32 "on" (Blinker.zeroed 5))) ≠ (2 ^ 32)%Z.
Proof. split; [by vm_compute | by vm_compute]. Qed.

(** C3, amended: the timed [changeState<S>()] stores the time stamp and
    then the selector; right after it [stateElapsed()] is 0; and [d] units
    later, with no transition in between, it is [d], for [d] below the
    modulus of the time type. *)
Theorem timed_changeState_elapsed {U Action} (R : N) (s : string)
    (w : World U Action) :
  Timed.changeState R s w =
    Base.changeState s
      (log (StoreTS (Timed.TimeStamp R w))
         (mkWorld (mkLogicImpl (_currentState (this w)) (Timed.TimeStamp R w)
                     (fields (this w)))
            (clock w) (trace w))) ∧
  trace (Timed.changeState R s w) =
    trace w ++ [StoreTS (Timed.TimeStamp R w); StoreState (State.state s)] ∧
  Timed.stateElapsed R (Timed.changeState R s w) = 0%Z ∧
  ∀ d, (0 ≤ d < Timed.modulus R)%Z →
       Timed.stateElapsed R (elapse d (Timed.changeState R s w)) = d.
Proof.
  split; [done|]. split.
  { unfold Timed.changeState, Base.changeState. simpl. by rewrite <- app_assoc. }
  split; [apply stateElapsed_changeState|].
  intros d Hd. rewrite stateElapsed_elapse by done. by apply Z.mod_small.
Qed.

Lemma timed_changeState_elapsed_witness :
  Timed.stateElapsed 32
    (elapse 300 (Timed.changeState 32 "on" (Blinker.zeroed 4294967196))) = 300%Z.
Proof.
  apply (timed_changeState_elapsed 32 "on" (Blinker.zeroed 4294967196)).
  by vm_compute.
Defined.

(** C7: calling [changeState<S>()] again and again leaves the selector at
    [S]; on a timed machine the elapsed time is 0 after each call, whatever
    time passed before it; of two calls the later decides the selector, and
    so it is for all the calls a body makes; the timed call stores the
    current time also when the machine is in [S] already. *)
Theorem changeState_repeated {U Action} (attr : Attribute) (R : N) (s t : string)
    (w : World U Action) :
  (∀ ds, ds ≠ [] →
     _currentState (this (repeatedly attr s ds w)) = State.state s ∧
     Timed.stateElapsed R (repeatedly (TimedAttr R) s ds w) = 0%Z) ∧
  _currentState (this (changeState attr t (changeState attr s w))) = State.state t ∧
  (∀ p w', exec attr p w = Some w' →
     ∃ evs, trace w' = trace w ++ evs ∧
            _currentState (this w') =
              default (_currentState (this w)) (last (stores evs))) ∧
  (Base.isState s w = true →
     _changeTS (this (Timed.changeState R s w)) = Timed.TimeStamp R w ∧
     Timed.stateElapsed R (Timed.changeState R s w) = 0%Z).
Proof.
  split; [|split; [|split]].
  - intros ds Hne. destruct ds as [|d ds _] using rev_ind; [done|].
    unfold repeatedly. rewrite !foldl_app. simpl. split.
    + apply changeState_selector.
    + apply stateElapsed_changeState.
  - apply changeState_selector.
  - intros p w' Hx. apply exec_effect in Hx as (evs & Ht & _ & _ & Hs & _).
    by exists evs.
  - intros _. split; [done | apply stateElapsed_changeState].
Qed.

Lemma changeState_repeated_witness :
  (_currentState (this (repeatedly Blinker.attr "on" [0; 7; 0]%Z (Blinker.zeroed 5)))
     = State.state "on" ∧
   Timed.stateElapsed 32 (repeatedly (TimedAttr 32) "on" [0; 7; 0]%Z (Blinker.zeroed 5))
     = 0%Z) ∧
  (∃ evs, trace (changeState Blinker.attr "on_" (changeState Blinker.attr "on" (Blinker.zeroed 5)))
            = trace (Blinker.zeroed 5) ++ evs ∧
          _currentState (this (changeState Blinker.attr "on_"
                                 (changeState Blinker.attr "on" (Blinker.zeroed 5))))
            = default (_currentState (this (Blinker.zeroed 5))) (last (stores evs))) ∧
  (_changeTS (this (Timed.changeState 32 "on"
                      (elapse 9 (Timed.changeState 32 "on" (Blinker.zeroed 5))))) = 14%Z ∧
   Timed.stateElapsed 32
     (Timed.changeState 32 "on"
        (elapse 9 (Timed.changeState 32 "on" (Blinker.zeroed 5)))) = 0%Z).
Proof.
  pose proof (changeState_repeated Blinker.attr 32 "on" "on" (Blinker.zeroed 5))
    as (Hrep & _ & Hlast & _).
  pose proof (changeState_repeated Blinker.attr 32 "on" "on"
                (elapse 9 (Timed.changeState 32 "on" (Blinker.zeroed 5))))
    as (_ & _ & _ & Hsame).
  split; [|split].
  - apply Hrep. discriminate.
  - apply (Hlast (ChangeState "on" (ChangeState "on_" Return))). reflexivity.
  - apply Hsame. reflexivity.
Defined.

(** C2: with the selector of a declared state current, [update()] returns
    after running the step function of that state, and the one dispatch
    it made is the dispatch of that step function. *)
Theorem update_dispatches_once {U Action} (attr : Attribute)
    (cls : list (@Decl U Action)) (d : Decl) (w : World U Action) :
  compiles attr cls → d ∈ cls →
  _currentState (this w) = State.state (struct_name d) →
  ∃ w', update attr cls w = Some w' ∧
        exec attr (update_body d) (log (Dispatch ("update_" +:+ struct_name d)) w)
          = Some w' ∧
        dispatches (trace w') = dispatches (trace w) ++ ["update_" +:+ struct_name d].
Proof. apply update_runs_step. Qed.

Lemma update_dispatches_once_witness :
  ∃ w', update Blinker.attr Blinker.BlinkerImpl
          (elapse 301 (changeState Blinker.attr "on" (Blinker.zeroed 0))) = Some w' ∧
        exec Blinker.attr Blinker.update_on
          (log (Dispatch "update_on")
             (elapse 301 (changeState Blinker.attr "on" (Blinker.zeroed 0)))) = Some w' ∧
        dispatches (trace w') = ["update_on"].
Proof.
  apply (update_dispatches_once Blinker.attr Blinker.BlinkerImpl
           (DECLARE_STATE_MEMBER "on" Blinker.update_on)).
  - apply BlinkerImpl_compiles.
  - apply list_elem_of_here.
  - reflexivity.
Defined.

(** C6: a step function that calls [changeState] still runs to its end,
    and no step function is dispatched before it returns; the selector it
    leaves decides what the next [update()] dispatches. *)
Theorem changeState_effective_next_update {U Action} (attr : Attribute)
    (cls : list (@Decl U Action)) (d : Decl) (w : World U Action) :
  compiles attr cls → d ∈ cls →
  _currentState (this w) = State.state (struct_name d) →
  ∃ w' evs,
    update attr cls w = Some w' ∧
    exec attr (update_body d) (log (Dispatch ("update_" +:+ struct_name d)) w)
      = Some w' ∧
    trace w' = trace w ++ Dispatch ("update_" +:+ struct_name d) :: evs ∧
    dispatches evs = [] ∧
    ∀ s, last (stores evs) = Some (State.state s) →
         Base.isState s w' = true ∧
         ∀ tick, ∃ w'', update attr cls (elapse tick w') = Some w'' ∧
                        dispatches (trace w'') =
                          dispatches (trace w) ++
                            ["update_" +:+ struct_name d; "update_" +:+ s].
Proof.
  intros Hc Hd Hcur.
  assert (Hv : valid cls w).
  { exists (struct_name d). split; [|done]. apply declared_decl. eauto. }
  destruct (update_total attr cls w Hc Hv) as (w' & Hu & Hv').
  pose proof Hu as Hx. rewrite (update_step attr cls d) in Hx by done.
  pose proof Hx as He. apply exec_effect in He as (evs & Ht & Hnd & _ & Hsel & _).
  exists w', evs. split; [done|]. split; [done|]. split.
  { rewrite Ht. simpl. by rewrite <- app_assoc. }
  split; [done|].
  intros s Hlast. rewrite Hlast in Hsel. simpl in Hsel.
  split; [by apply isState_true_iff|].
  intros tick.
  destruct Hv' as (s' & Hs' & Hcur'). rewrite Hsel in Hcur'.
  apply state_inj in Hcur' as <-.
  apply declared_decl in Hs' as (d' & Hd' & <-).
  destruct (update_runs_step attr cls d' (elapse tick w') Hc Hd' Hsel)
    as (w'' & Hu'' & _ & Hdisp).
  exists w''. split; [done|].
  rewrite Hdisp. simpl. rewrite Ht. simpl.
  rewrite !dispatches_app, Hnd. simpl. by rewrite app_nil_r, <- app_assoc.
Qed.

Lemma changeState_effective_next_update_witness :
  ∃ w' evs,
    update Blinker.attr Blinker.BlinkerImpl (Blinker.blinker 0) = Some w' ∧
    exec Blinker.attr
      (ChangeState "on" (CallMember "enter_on_init" Blinker.enter_on_init Return))
      (log (Dispatch "update_on_init") (Blinker.blinker 0)) = Some w' ∧
    trace w' = trace (Blinker.blinker 0) ++ Dispatch "update_on_init" :: evs ∧
    dispatches evs = [] ∧
    ∀ s, last (stores evs) = Some (State.state s) →
         Base.isState s w' = true ∧
         ∀ tick, ∃ w'', update Blinker.attr Blinker.BlinkerImpl (elapse tick w') = Some w'' ∧
                        dispatches (trace w'') = ["update_on_init"; "update_" +:+ s].
Proof.
  apply (changeState_effective_next_update Blinker.attr Blinker.BlinkerImpl
           (DECLARE_STATE_ENTRY_MEMBER "on" "init" Blinker.enter_on_init)).
  - apply BlinkerImpl_compiles.
  - do 2 apply list_elem_of_further. apply list_elem_of_here.
  - reflexivity.
Defined.

(** C8: once [changeState] has set a declared state, every [update()] of
    the host loop returns, however long the loop runs and whatever time
    passes between the calls, and leaves a declared state current;
    [stateElapsed()] is a value of the time type. [changeState],
    [isState], [state] and [stateElapsed] have no error result at all. *)
Theorem operations_total {U Action} (attr : Attribute) (cls : list (@Decl U Action))
    (s : string) (ticks : list Z) (w : World U Action) :
  compiles attr cls → declared cls s →
  ∃ w', loop attr cls ticks (changeState attr s w) = Some w' ∧
        valid cls w' ∧
        (∃ t, declared cls t ∧ Base.state w' = State.state t ∧ Base.isState t w' = true) ∧
        ∀ R, (0 ≤ Timed.stateElapsed R w' < Timed.modulus R)%Z.
Proof.
  intros Hc Hs.
  destruct (loop_total attr cls ticks Hc (changeState attr s w)) as (w' & Hl & Hv).
  { exists s. split; [done | apply changeState_selector]. }
  exists w'. split; [done|]. split; [done|]. split.
  - destruct Hv as (t & Ht & Hcur). exists t. split; [done|]. split; [done|].
    by apply isState_true_iff.
  - intros R. apply stateElapsed_range.
Qed.

Lemma operations_total_witness :
  ∃ w', loop Blinker.attr Blinker.BlinkerImpl [100; 100; 100; 100; 100; 100]%Z
          (Blinker.blinker 5) = Some w' ∧
        valid Blinker.BlinkerImpl w' ∧
        (∃ t, declared Blinker.BlinkerImpl t ∧ Base.state w' = State.state t ∧
              Base.isState t w' = true) ∧
        ∀ R, (0 ≤ Timed.stateElapsed R w' < Timed.modulus R)%Z.
Proof.
  apply (operations_total Blinker.attr Blinker.BlinkerImpl "on_init"
           [100; 100; 100; 100; 100; 100]%Z (Blinker.zeroed 5)).
  - apply BlinkerImpl_compiles.
  - unfold declared. apply (bool_decide_unpack _). by vm_compute.
Defined.

(** C4 as stated fails on the sketch itself: the body of the entry state
    [on_init] moves on to [on_], so after the first [update()] the machine
    is not in [on], and the second [update()] runs the step function of
    [on_], not that of [on]. *)
Lemma entry_second_update_counterexample :
  ∃ w1 w2,
    update Blinker.attr Blinker.BlinkerImpl (Blinker.blinker 0) = Some w1 ∧
    update Blinker.attr Blinker.BlinkerImpl w1 = Some w2 ∧
    Base.isState "on" w1 = false ∧
    dispatches (trace w2) = ["update_on_init"; "update_on_"] ∧
    dispatches (trace w2) ≠ ["update_on_init"; "update_on"].
Proof.
  eexists _, _. split; [by vm_compute|]. split; [by vm_compute|].
  split; [by vm_compute|]. split; [by vm_compute|]. by vm_compute.
Qed.

(** C4, amended: with the selector of the entry state [to_name] current,
    [update()] makes the transition to [to] (with the time stamp, on a
    timed machine) and then runs the entry body, once; at the start of
    the body [isState<to>()] holds and [isState<to_name>()] does not; and
    when the body leaves the machine in [to], the next [update()] runs
    the step function of [to]. *)
Theorem entry_state_update {U Action} (attr : Attribute) (cls : list (@Decl U Action))
    (to name : string) (body : Prog U Action) (w : World U Action) :
  compiles attr cls →
  DECLARE_STATE_ENTRY_MEMBER to name body ∈ cls →
  _currentState (this w) = State.state (to +:+ "_" +:+ name) →
  let w0 := changeState attr to (log (Dispatch ("update_" +:+ to +:+ "_" +:+ name)) w) in
  trace w0 = trace w ++ Dispatch ("update_" +:+ to +:+ "_" +:+ name)
                     :: transition attr to (clock w) ∧
  Base.isState to w0 = true ∧
  Base.isState (to +:+ "_" +:+ name) w0 = false ∧
  ∃ w1, update attr cls w = Some w1 ∧
        exec attr body (log (Call ("enter_" +:+ to +:+ "_" +:+ name)) w0) = Some w1 ∧
        dispatches (trace w1) =
          dispatches (trace w) ++ ["update_" +:+ to +:+ "_" +:+ name] ∧
        ∃ d, d ∈ cls ∧ struct_name d = to ∧
             (_currentState (this w1) = State.state to →
              ∀ tick, ∃ w2,
                update attr cls (elapse tick w1) = Some w2 ∧
                exec attr (update_body d)
                  (log (Dispatch ("update_" +:+ to)) (elapse tick w1)) = Some w2 ∧
                dispatches (trace w2) =
                  dispatches (trace w) ++
                    ["update_" +:+ to +:+ "_" +:+ name; "update_" +:+ to]).
Proof.
  intros Hc Hin Hcur w0.
  set (e := DECLARE_STATE_ENTRY_MEMBER to name body) in *.
  assert (Hwf : well_formed attr cls (update_body e)).
  { destruct Hc as [_ Hall]. rewrite Forall_forall in Hall. by apply Hall. }
  destruct Hwf as (Hto & _).
  apply declared_decl in Hto as (d & Hd & Hdn).
  split.
  { unfold w0. rewrite changeState_trace. simpl. by rewrite <- app_assoc. }
  split; [apply isState_true_iff, changeState_selector|].
  split.
  { apply isState_false_iff. unfold w0. rewrite changeState_selector.
    intros Heq. apply state_inj in Heq. by apply entry_struct_ne in Heq. }
  destruct (update_runs_step attr cls e w Hc Hin Hcur) as (w1 & Hu & Hx & Hdisp).
  exists w1. split; [done|]. split.
  { simpl in Hx. fold w0 in Hx.
    by destruct (exec attr body (log (Call ("enter_" +:+ to +:+ "_" +:+ name)) w0)). }
  split; [done|].
  exists d. split; [done|]. split; [done|].
  intros Hsel tick. subst to.
  destruct (update_runs_step attr cls d (elapse tick w1) Hc Hd Hsel)
    as (w2 & Hu2 & Hx2 & Hdisp2).
  exists w2. split; [done|]. split; [done|].
  rewrite Hdisp2. simpl. rewrite Hdisp. by rewrite <- app_assoc.
Qed.

Lemma entry_state_update_witness :
  ∃ w1, update Blinker.attr Blinker.BlinkerImpl
          (changeState Blinker.attr "on_" (Blinker.zeroed 0)) = Some w1 ∧
        exec Blinker.attr Blinker.enter_on_
          (log (Call "enter_on_")
             (changeState Blinker.attr "on"
                (log (Dispatch "update_on_")
                   (changeState Blinker.attr "on_" (Blinker.zeroed 0))))) = Some w1 ∧
        dispatches (trace w1) = ["update_on_"] ∧
        ∃ d, d ∈ Blinker.BlinkerImpl ∧ struct_name d = "on" ∧
             (_currentState (this w1) = State.state "on" →
              ∀ tick, ∃ w2,
                update Blinker.attr Blinker.BlinkerImpl (elapse tick w1) = Some w2 ∧
                exec Blinker.attr (update_body d)
                  (log (Dispatch "update_on") (elapse tick w1)) = Some w2 ∧
                dispatches (trace w2) = ["update_on_"; "update_on"]).
Proof.
  destruct (entry_state_update Blinker.attr Blinker.BlinkerImpl "on" ""
              Blinker.enter_on_ (changeState Blinker.attr "on_" (Blinker.zeroed 0)))
    as (_ & _ & _ & H).
  - apply BlinkerImpl_compiles.
  - do 3 apply list_elem_of_further. apply list_elem_of_here.
  - reflexivity.
  - exact H.
Defined.

(** ** The sketch, run *)

(** Without the constructor's [changeState], the selector of the global
    object is null and [update()] is undefined. *)
Example update_null :
  update Blinker.attr Blinker.BlinkerImpl (Blinker.zeroed 0) = None.
Proof. reflexivity. Qed.

(** The first iterations of [loop()], as the sketch lists them:
    [on_init], [on_], [on], ... and, once more than [on_time] has passed,
    [off_], [off]. *)
Example blinker_first_iterations :
  (λ w, dispatches (trace w)) <$>
    loop Blinker.attr Blinker.BlinkerImpl [100; 100; 100; 100; 100; 100; 100; 100]%Z
      (Blinker.blinker 5) =
  Some ["update_on_init"; "update_on_"; "update_on"; "update_on"; "update_on";
        "update_on"; "update_off_"; "update_off"].
Proof. by vm_compute. Qed.

(** * Further properties of the code *)

(** ** Selectors and the dispatch table *)

(** X1: the machine is in at most one state: when [isState<S>()] holds,
    [state()] is the selector of [S] and [isState<T>()] fails for every
    other struct [T]. *)
Theorem isState_exclusive {U Action} (s : string) (w : World U Action) :
  Base.isState s w = true →
  Base.state w = State.state s ∧ ∀ t, t ≠ s → Base.isState t w = false.
Proof.
  intros Hs. apply isState_true_iff in Hs. split; [done|].
  intros t Hne. apply isState_false_iff. rewrite Hs.
  intros Heq. apply state_inj in Heq. by subst.
Qed.

Lemma isState_exclusive_witness :
  Base.state (Blinker.blinker 0) = State.state "on_init" ∧
  ∀ t, t ≠ "on_init" → Base.isState t (Blinker.blinker 0) = false.
Proof. apply (isState_exclusive "on_init" (Blinker.blinker 0)). reflexivity. Defined.






(** ** Elapsed time and the clock *)

Section ElapsedFacts.
Context {U Action : Type}.
Implicit Type w : World U Action.

(** Time passing adds to the elapsed time, in the time type. *)
Lemma stateElapsed_elapse_add R d w :
  Timed.stateElapsed R (elapse d w) =
  ((Timed.stateElapsed R w + d) mod Timed.modulus R)%Z.
Proof.
  unfold Timed.stateElapsed, Timed.TimeStamp. simpl.
  rewrite Zplus_mod_idemp_l, Zminus_mod_idemp_l.
  replace (clock w mod Timed.modulus R - _changeTS (this w) + d)%Z
    with (clock w mod Timed.modulus R + (d - _changeTS (this w)))%Z by lia.
  rewrite Zplus_mod_idemp_l. f_equal. lia.
Qed.

End ElapsedFacts.

(** X4: [stateElapsed()] moves with the clock in the arithmetic of the
    time type: [d] units later it is the old value plus [d], modulo
    [2^R]; so any whole number of periods of the time type later it reads
    the same again. *)
Theorem stateElapsed_advance {U Action} (R : N) (d k : Z) (w : World U Action) :
  Timed.stateElapsed R (elapse d w) =
    ((Timed.stateElapsed R w + d) mod Timed.modulus R)%Z ∧
  Timed.stateElapsed R (elapse (k * Timed.modulus R) w) = Timed.stateElapsed R w.
Proof.
  split; [apply stateElapsed_elapse_add|].
  rewrite stateElapsed_elapse_add, Z_mod_plus_full.
  apply Z.mod_small, stateElapsed_range.
Qed.

(** X5: as long as the sum stays below [2^R], the elapsed time grows by
    exactly the time that passed. *)
Theorem stateElapsed_no_wrap {U Action} (R : N) (d : Z) (w : World U Action) :
  (0 ≤ d)%Z →
  (Timed.stateElapsed R w + d < Timed.modulus R)%Z →
  Timed.stateElapsed R (elapse d w) = (Timed.stateElapsed R w + d)%Z.
Proof.
  intros Hd Hlt. rewrite stateElapsed_elapse_add. apply Z.mod_small.
  pose proof (stateElapsed_range R w). lia.
Qed.

Lemma stateElapsed_no_wrap_witness :
  Timed.stateElapsed 32 (elapse 250 (elapse 100 (Blinker.blinker 4294967290))) = 350%Z.
Proof.
  apply (stateElapsed_no_wrap 32 250 (elapse 100 (Blinker.blinker 4294967290)));
    by vm_compute.
Defined.

(** X6: a time source that steps back by [d] after a transition makes
    [stateElapsed()] read [2^R - d]: the unsigned difference wraps, it
    does not go negative. *)
Theorem stateElapsed_clock_back {U Action} (R : N) (s : string) (d : Z)
    (w : World U Action) :
  (0 < d ≤ Timed.modulus R)%Z →
  Timed.stateElapsed R (elapse (- d) (Timed.changeState R s w)) =
  (Timed.modulus R - d)%Z.
Proof.
  intros Hd. rewrite stateElapsed_elapse_add, stateElapsed_changeState.
  replace (0 + - d)%Z with ((Timed.modulus R - d) + (-1) * Timed.modulus R)%Z by lia.
  rewrite Z_mod_plus_full. apply Z.mod_small. lia.
Qed.

Lemma stateElapsed_clock_back_witness :
  Timed.stateElapsed 32 (elapse (- 1) (Timed.changeState 32 "on" (Blinker.zeroed 5)))
  = 4294967295%Z.
Proof.
  apply (stateElapsed_clock_back 32 "on" 1 (Blinker.zeroed 5)). by vm_compute.
Defined.

(** ** Time stamps and transitions *)

Section StampFacts.
Context {U Action : Type}.
Implicit Type w : World U Action.
Implicit Type p : Prog U Action.
Implicit Type cls : list (@Decl U Action).

Lemma stamps_of_app attr c us1 us2 :
  stamps_of attr c (us1 ++ us2) = stamps_of attr c us1 ++ stamps_of attr c us2.
Proof. destruct attr; [done|]. apply fmap_app. Qed.

Lemma stamped_trans attr evs1 evs2 w1 w2 w3 :
  stamped attr evs1 w1 w2 → stamped attr evs2 w2 w3 →
  stamped attr (evs1 ++ evs2) w1 w3.
Proof.
  intros [He1 Hs1] [He2 Hs2]. split; [by eapply effect_trans|].
  rewrite stamps_app, stores_app, stamps_of_app, Hs1, Hs2.
  destruct He1 as (_ & _ & -> & _). done.
Qed.

Lemma stamped_changeState attr s w :
  stamped attr (transition attr s (clock w)) w (changeState attr s w).
Proof. split; [apply effect_changeState | by destruct attr]. Qed.

Lemma exec_stamped attr p :
  ∀ w w', exec attr p w = Some w' → ∃ evs, stamped attr evs w w'.
Proof.
  induction p as [|s k IH|s k IH|k IH|k IH|f body IHb k IHk|k IH|u k IH|a k IH];
    intros w w' Hx; simpl in Hx.
  - injection Hx as <-. exists []. split; [apply effect_refl | by destruct attr].
  - apply IH in Hx as [evs He]. eexists.
    eapply stamped_trans; [apply stamped_changeState | exact He].
  - by apply IH in Hx.
  - by apply IH in Hx.
  - destruct attr as [|R]; [done|]. by apply IH in Hx.
  - destruct (exec attr body (log (Call f) w)) as [w1|] eqn:Hb; [|done].
    apply IHb in Hb as [evs1 He1]. apply IHk in Hx as [evs2 He2].
    eexists. eapply stamped_trans; [|exact He2].
    eapply (stamped_trans _ [Call f]); [|exact He1].
    split; [apply effect_Call | by destruct attr].
  - by apply IH in Hx.
  - apply IH in Hx as [evs He]. exists evs. change evs with ([] ++ evs).
    eapply stamped_trans; [|exact He].
    split; [apply effect_WriteFields | by destruct attr].
  - apply IH in Hx as [evs He]. eexists.
    eapply (stamped_trans _ [Host a]); [|exact He].
    split; [apply effect_Host | by destruct attr].
Qed.

(** One [update()], with what its step function added to the log. *)
Lemma update_stamped attr cls d w :
  compiles attr cls → d ∈ cls →
  _currentState (this w) = State.state (struct_name d) →
  ∃ w' evs,
    update attr cls w = Some w' ∧
    trace w' = trace w ++ Dispatch ("update_" +:+ struct_name d) :: evs ∧
    stamped attr evs (log (Dispatch ("update_" +:+ struct_name d)) w) w'.
Proof.
  intros Hc Hd Hcur.
  destruct (update_runs_step attr cls d w Hc Hd Hcur) as (w' & Hu & Hx & _).
  apply exec_stamped in Hx as [evs He].
  exists w', evs. split; [done|]. split; [|done].
  destruct He as [(Ht & _) _]. rewrite Ht. simpl. by rewrite <- app_assoc.
Qed.

End StampFacts.



(** X8: on a machine without the timed attribute, [update()] stores
    nothing to [_changeTS], whatever transitions the step function
    makes. *)
Theorem base_update_no_stamp {U Action} (cls : list (@Decl U Action))
    (d : Decl) (w : World U Action) :
  compiles void cls → d ∈ cls →
  _currentState (this w) = State.state (struct_name d) →
  ∃ w' evs,
    update void cls w = Some w' ∧
    trace w' = trace w ++ Dispatch ("update_" +:+ struct_name d) :: evs ∧
    stamps evs = [] ∧
    _changeTS (this w') = _changeTS (this w).
Proof.
  intros Hc Hd Hcur.
  destruct (update_stamped void cls d w Hc Hd Hcur)
    as (w' & evs & Hu & Ht & (_ & _ & _ & _ & Hts) & Hst).
  simpl in Hst, Hts.
  exists w', evs. split; [done|]. split; [done|]. split; [done|].
  by rewrite Hts, Hst.
Qed.

Lemma MyFSMImpl_compiles : compiles void MyFSMImpl.MyFSMImpl.
Proof.
  split.
  - apply (bool_decide_unpack _). by vm_compute.
  - repeat constructor.
Qed.

Lemma base_update_no_stamp_witness :
  ∃ w' evs,
    update void MyFSMImpl.MyFSMImpl
      (changeState void "first_state" (MyFSMImpl.zeroed 9)) = Some w' ∧
    trace w' = trace (changeState void "first_state" (MyFSMImpl.zeroed 9))
                 ++ Dispatch "update_first_state" :: evs ∧
    stamps evs = [] ∧
    _changeTS (this w') = 0%Z.
Proof.
  apply (base_update_no_stamp MyFSMImpl.MyFSMImpl
           (DECLARE_STATE_MEMBER "first_state" MyFSMImpl.update_first_state)).
  - apply MyFSMImpl_compiles.
  - apply list_elem_of_here.
  - reflexivity.
Defined.

(** ** The host loop and calls from outside *)

(** X9: in a class that compiles, a machine that is in a declared state
    stays in one whatever the owner does with it: [update()],
    [changeState<S>()] from outside (also through the base class) for
    declared [S], and waiting, in any order; every [update()] among these
    calls returns. *)
Theorem drive_total {U Action} (attr : Attribute) (cls : list (@Decl U Action))
    (calls : list HostCall) (w : World U Action) :
  compiles attr cls →
  Forall (declared cls) (targets calls) →
  valid cls w →
  ∃ w', drive attr cls calls w = Some w' ∧ valid cls w'.
Proof.
  intros Hc. revert w.
  induction calls as [|c calls IH]; intros w Ht Hv; simpl.
  - eauto.
  - destruct c as [|s|s|d]; simpl in Ht.
    + destruct (update_total attr cls w Hc Hv) as (w1 & -> & Hv1). by apply IH.
    + apply Forall_cons in Ht as [Hs Ht]. apply IH; [done|].
      exists s. split; [done | apply changeState_selector].
    + apply Forall_cons in Ht as [Hs Ht]. apply IH; [done|].
      exists s. by split.
    + by apply IH.
Qed.

Lemma drive_total_witness :
  ∃ w', drive Blinker.attr Blinker.BlinkerImpl
          [call_update; wait 400; call_changeState "off"; call_update; wait 800;
           call_base_changeState "on_"; call_update; call_update]
          (Blinker.blinker 5) = Some w' ∧
        valid Blinker.BlinkerImpl w'.
Proof.
  apply (drive_total Blinker.attr Blinker.BlinkerImpl).
  - apply BlinkerImpl_compiles.
  - repeat constructor; unfold declared; apply (bool_decide_unpack _); by vm_compute.
  - exists "on_init". split; [|reflexivity].
    unfold declared. apply (bool_decide_unpack _). by vm_compute.
Defined.

(** X10: a host loop of [n] iterations makes exactly [n] dispatches, one
    per [update()], each of a step function [update_ ## struct] of a
    declared struct. *)
Theorem loop_dispatches {U Action} (attr : Attribute) (cls : list (@Decl U Action))
    (ticks : list Z) (w : World U Action) :
  compiles attr cls → valid cls w →
  ∃ w' fs,
    loop attr cls ticks w = Some w' ∧
    dispatches (trace w') = dispatches (trace w) ++ fs ∧
    length fs = length ticks ∧
    Forall (λ f, ∃ d, d ∈ cls ∧ f = "update_" +:+ struct_name d) fs.
Proof.
  intros Hc. revert w.
  induction ticks as [|t ticks IH]; intros w Hv; simpl.
  - exists w, []. by rewrite app_nil_r.
  - destruct Hv as (s & Hs & Hcur).
    apply declared_decl in Hs as (d & Hd & <-).
    destruct (update_runs_step attr cls d w Hc Hd Hcur) as (w1 & Hu & Hx & Hdisp).
    assert (Hv1 : valid cls w1).
    { destruct (update_total attr cls w Hc) as (w1' & Hu' & Hv1).
      - exists (struct_name d). split; [|done]. apply declared_decl. eauto.
      - rewrite Hu in Hu'. by injection Hu' as <-. }
    rewrite Hu.
    destruct (IH (elapse t w1) Hv1) as (w' & fs & Hl & Hd' & Hlen & Hall).
    exists w', (("update_" +:+ struct_name d) :: fs).
    split; [done|]. split; [|split].
    + rewrite Hd'. simpl. rewrite Hdisp. by rewrite <- app_assoc.
    + simpl. by rewrite Hlen.
    + constructor; [|done]. eauto.
Qed.

Lemma loop_dispatches_witness :
  ∃ w' fs,
    loop Blinker.attr Blinker.BlinkerImpl [100; 100; 100]%Z (Blinker.blinker 5) = Some w' ∧
    dispatches (trace w') = fs ∧
    length fs = 3 ∧
    Forall (λ f, ∃ d, d ∈ Blinker.BlinkerImpl ∧ f = "update_" +:+ struct_name d) fs.
Proof.
  apply (loop_dispatches Blinker.attr Blinker.BlinkerImpl [100; 100; 100]%Z
           (Blinker.blinker 5)).
  - apply BlinkerImpl_compiles.
  - exists "on_init". split; [|reflexivity].
    unfold declared. apply (bool_decide_unpack _). by vm_compute.
Defined.

(** ** The blinker, step by step *)

Section BlinkerFacts.
Import Blinker.
Implicit Type w : World unit Arduino.

Lemma blinker_update w (d : Decl) :
  d ∈ BlinkerImpl → _currentState (this w) = State.state (struct_name d) →
  update attr BlinkerImpl w =
  exec attr (update_body d) (log (Dispatch ("update_" +:+ struct_name d)) w).
Proof. intros Hd Hcur. apply update_step; [apply BlinkerImpl_compiles|done..]. Qed.

Lemma blinker_update_on w :
  _currentState (this w) = State.state "on" →
  update attr BlinkerImpl w =
  Some (if (on_time <? Timed.stateElapsed 32 w)%Z
        then changeState attr "off_"
               (log (Host (Serial_println_ulong (Timed.stateElapsed 32 w)))
                  (log (Host (Serial_print "Time elapsed in on state: "))
                     (log (Dispatch "update_on") w)))
        else log (Dispatch "update_on") w).
Proof.
  intros Hcur.
  rewrite (blinker_update w (DECLARE_STATE_MEMBER "on" update_on));
    [|apply list_elem_of_here|done].
  simpl. change (Timed.stateElapsed 32 (log (Dispatch ("update_" +:+ "on")) w))
    with (Timed.stateElapsed 32 w).
  destruct (on_time <? Timed.stateElapsed 32 w)%Z; reflexivity.
Qed.

Lemma blinker_update_off w :
  _currentState (this w) = State.state "off" →
  update attr BlinkerImpl w =
  Some (if (off_time <? Timed.stateElapsed 32 w)%Z
        then changeState attr "on_"
               (log (Host (Serial_println_ulong (Timed.stateElapsed 32 w)))
                  (log (Host (Serial_print "Time elapsed in off state: "))
                     (log (Dispatch "update_off") w)))
        else log (Dispatch "update_off") w).
Proof.
  intros Hcur.
  rewrite (blinker_update w (DECLARE_STATE_MEMBER "off" update_off));
    [|apply list_elem_of_further, list_elem_of_here|done].
  simpl. change (Timed.stateElapsed 32 (log (Dispatch ("update_" +:+ "off")) w))
    with (Timed.stateElapsed 32 w).
  destruct (off_time <? Timed.stateElapsed 32 w)%Z; reflexivity.
Qed.

Lemma blinker_update_on_init w :
  _currentState (this w) = State.state "on_init" →
  update attr BlinkerImpl w =
  Some (changeState attr "on_"
          (log (Host (pinMode_OUTPUT builtin_led_pin))
             (log (Host (Serial_println "on_init state"))
                (log (Call "enter_on_init")
                   (changeState attr "on" (log (Dispatch "update_on_init") w)))))).
Proof.
  intros Hcur.
  by rewrite (blinker_update w (DECLARE_STATE_ENTRY_MEMBER "on" "init" enter_on_init));
    [|do 2 apply list_elem_of_further; apply list_elem_of_here|done].
Qed.

Lemma blinker_update_on_ w :
  _currentState (this w) = State.state "on_" →
  update attr BlinkerImpl w =
  Some (log (Host (digitalWrite builtin_led_pin true))
          (log (Host (Serial_println "on_ state"))
             (log (Call "enter_on_")
                (changeState attr "on" (log (Dispatch "update_on_") w))))).
Proof.
  intros Hcur.
  by rewrite (blinker_update w (DECLARE_STATE_ENTRY_MEMBER "on" "" enter_on_));
    [|do 3 apply list_elem_of_further; apply list_elem_of_here|done].
Qed.

Lemma blinker_update_off_ w :
  _currentState (this w) = State.state "off_" →
  update attr BlinkerImpl w =
  Some (log (Host (digitalWrite builtin_led_pin false))
          (log (Host (Serial_println "off_ state"))
             (log (Call "enter_off_")
                (changeState attr "off" (log (Dispatch "update_off_") w))))).
Proof.
  intros Hcur.
  by rewrite (blinker_update w (DECLARE_STATE_ENTRY_MEMBER "off" "" enter_off_));
    [|do 4 apply list_elem_of_further; apply list_elem_of_here|done].
Qed.

(** What is on the LED pin after more events. *)
Lemma led_app evs1 evs2 :
  led (evs1 ++ evs2) = match led evs2 with Some b => Some b | None => led evs1 end.
Proof.
  unfold led. rewrite omap_app.
  destruct (omap _ evs2) as [|b bs _] using rev_ind.
  - by rewrite app_nil_r.
  - by rewrite app_assoc, !last_snoc.
Qed.

Lemma blinker_inv_update w :
  blinker_inv w → ∃ w', update attr BlinkerImpl w = Some w' ∧ blinker_inv w'.
Proof.
  intros [Hcur | [Hcur | [[Hcur Hled] | [Hcur Hled]]]].
  - rewrite blinker_update_on_ by done. eexists. split; [done|].
    right. right. left. split; [done|]. simpl.
    rewrite <- !app_assoc. by rewrite led_app.
  - rewrite blinker_update_off_ by done. eexists. split; [done|].
    right. right. right. split; [done|]. simpl.
    rewrite <- !app_assoc. by rewrite led_app.
  - rewrite blinker_update_on by done. eexists. split; [done|].
    destruct (on_time <? Timed.stateElapsed 32 w)%Z.
    + right. by left.
    + right. right. left. split; [done|]. simpl. by rewrite led_app.
  - rewrite blinker_update_off by done. eexists. split; [done|].
    destruct (off_time <? Timed.stateElapsed 32 w)%Z.
    + by left.
    + right. right. right. split; [done|]. simpl. by rewrite led_app.
Qed.

Lemma blinker_inv_loop ticks :
  ∀ w, blinker_inv w →
       ∃ w', loop attr BlinkerImpl ticks w = Some w' ∧ blinker_inv w'.
Proof.
  induction ticks as [|t ticks IH]; intros w Hinv; simpl.
  - eauto.
  - destruct (blinker_inv_update w Hinv) as (w1 & -> & Hinv1).
    apply IH. exact Hinv1.
Qed.

End BlinkerFacts.





(** X13: once the first iteration of [loop()] has run, the blinker is
    never in [on_init] again, and between iterations it is in [on] only
    with the LED pin written high last, in [off] only with it written low
    last; every iteration returns. *)
Theorem blinker_led_invariant :
  (∀ ticks w, blinker_inv w →
     ∃ w', loop Blinker.attr Blinker.BlinkerImpl ticks w = Some w' ∧ blinker_inv w') ∧
  (∀ c t ticks,
     ∃ w', loop Blinker.attr Blinker.BlinkerImpl (t :: ticks) (Blinker.blinker c)
             = Some w' ∧
           blinker_inv w' ∧ Base.isState "on_init" w' = false).
Proof.
  split; [apply blinker_inv_loop|].
  intros c t ticks. simpl.
  rewrite blinker_update_on_init by done.
  destruct (blinker_inv_loop ticks
              (elapse t
                 (changeState Blinker.attr "on_"
                    (log (Host (Blinker.pinMode_OUTPUT Blinker.builtin_led_pin))
                       (log (Host (Blinker.Serial_println "on_init state"))
                          (log (Call "enter_on_init")
                             (changeState Blinker.attr "on"
                                (log (Dispatch "update_on_init") (Blinker.blinker c)))))))))
    as (w' & Hl & Hinv); [by left|].
  exists w'. split; [done|]. split; [done|].
  apply isState_false_iff.
  destruct Hinv as [-> | [-> | [[-> _] | [-> _]]]]; discriminate.
Qed.

Lemma blinker_led_invariant_witness :
  ∃ w', loop Blinker.attr Blinker.BlinkerImpl [100; 250; 100]%Z
          (elapse 1 (changeState Blinker.attr "off_" (Blinker.zeroed 0))) = Some w' ∧
        blinker_inv w'.
Proof.
  destruct blinker_led_invariant as [Hinv _].
  apply Hinv. right. left. reflexivity.
Defined.

(** ** How long the blinker stays *)

Section DwellFacts.
Import Blinker.
Implicit Type w : World unit Arduino.

Lemma sum_nonneg (ticks : list Z) :
  Forall (λ t, 0 ≤ t)%Z ticks → (0 ≤ foldr Z.add 0%Z ticks)%Z.
Proof. induction 1 as [|t ticks Ht _ IH]; simpl; lia. Qed.

Lemma stateElapsed_small_step (t bound : Z) w :
  (0 ≤ t)%Z → (Timed.stateElapsed 32 w + t ≤ bound)%Z → (bound < 4294967296)%Z →
  Timed.stateElapsed 32 (elapse t w) = (Timed.stateElapsed 32 w + t)%Z.
Proof.
  intros Ht Hle Hb. rewrite stateElapsed_elapse_add. apply Z.mod_small.
  pose proof (stateElapsed_range 32 w) as Hr.
  change (Timed.modulus 32) with 4294967296%Z in *. lia.
Qed.

Lemma world_eq w : w = mkWorld (this w) (clock w + 0) (trace w ++ []).
Proof. destruct w. simpl. by rewrite Z.add_0_r, app_nil_r. Qed.

Lemma stays_on ticks :
  ∀ w, _currentState (this w) = State.state "on" →
       Forall (λ t, 0 ≤ t)%Z ticks →
       (Timed.stateElapsed 32 w + foldr Z.add 0%Z ticks ≤ on_time)%Z →
       loop attr BlinkerImpl ticks w =
       Some (mkWorld (this w) (clock w + foldr Z.add 0%Z ticks)
               (trace w ++ replicate (length ticks) (Dispatch "update_on"))).
Proof.
  induction ticks as [|t ticks IH]; intros w Hcur Hpos Hle; simpl.
  - f_equal. apply world_eq.
  - apply Forall_cons in Hpos as [Ht Hpos].
    pose proof (sum_nonneg ticks Hpos) as Hsum. simpl in Hle.
    pose proof (stateElapsed_range 32 w) as Hr.
    rewrite blinker_update_on by done.
    destruct (on_time <? Timed.stateElapsed 32 w)%Z eqn:Hcmp.
    { apply Z.ltb_lt in Hcmp. lia. }
    rewrite IH; [|done|done|].
    + simpl. f_equal. f_equal; [lia|]. by rewrite <- app_assoc.
    + change (Timed.stateElapsed 32 (elapse t (log (Dispatch "update_on") w)))
        with (Timed.stateElapsed 32 (elapse t w)).
      rewrite (stateElapsed_small_step t on_time) by (done || lia). lia.
Qed.

Lemma stays_off ticks :
  ∀ w, _currentState (this w) = State.state "off" →
       Forall (λ t, 0 ≤ t)%Z ticks →
       (Timed.stateElapsed 32 w + foldr Z.add 0%Z ticks ≤ off_time)%Z →
       loop attr BlinkerImpl ticks w =
       Some (mkWorld (this w) (clock w + foldr Z.add 0%Z ticks)
               (trace w ++ replicate (length ticks) (Dispatch "update_off"))).
Proof.
  induction ticks as [|t ticks IH]; intros w Hcur Hpos Hle; simpl.
  - f_equal. apply world_eq.
  - apply Forall_cons in Hpos as [Ht Hpos].
    pose proof (sum_nonneg ticks Hpos) as Hsum. simpl in Hle.
    pose proof (stateElapsed_range 32 w) as Hr.
    rewrite blinker_update_off by done.
    destruct (off_time <? Timed.stateElapsed 32 w)%Z eqn:Hcmp.
    { apply Z.ltb_lt in Hcmp. lia. }
    rewrite IH; [|done|done|].
    + simpl. f_equal. f_equal; [lia|]. by rewrite <- app_assoc.
    + change (Timed.stateElapsed 32 (elapse t (log (Dispatch "update_off") w)))
        with (Timed.stateElapsed 32 (elapse t w)).
      rewrite (stateElapsed_small_step t off_time) by (done || lia). lia.
Qed.

End DwellFacts.

(** X14: the blinker does not leave [on] early: while the time spent in
    the state, with the time the host loop lets pass, stays within
    [on_time], every [update()] only dispatches [update_on]: no
    transition, no output, selector and time stamp untouched. The same in
    [off] with [off_time]. *)
Theorem blinker_dwell (ticks : list Z) (w : World unit Blinker.Arduino) :
  Forall (λ t, 0 ≤ t)%Z ticks →
  (_currentState (this w) = State.state "on" →
   (Timed.stateElapsed 32 w + foldr Z.add 0%Z ticks ≤ Blinker.on_time)%Z →
   loop Blinker.attr Blinker.BlinkerImpl ticks w =
   Some (mkWorld (this w) (clock w + foldr Z.add 0%Z ticks)
           (trace w ++ replicate (length ticks) (Dispatch "update_on")))) ∧
  (_currentState (this w) = State.state "off" →
   (Timed.stateElapsed 32 w + foldr Z.add 0%Z ticks ≤ Blinker.off_time)%Z →
   loop Blinker.attr Blinker.BlinkerImpl ticks w =
   Some (mkWorld (this w) (clock w + foldr Z.add 0%Z ticks)
           (trace w ++ replicate (length ticks) (Dispatch "update_off")))).
Proof.
  intros Hpos. split; intros Hcur Hle.
  - by apply stays_on.
  - by apply stays_off.
Qed.

Lemma blinker_dwell_witness :
  loop Blinker.attr Blinker.BlinkerImpl [100; 100; 100]%Z
    (changeState Blinker.attr "on" (Blinker.zeroed 4294967200)) =
  Some (mkWorld (mkLogicImpl (State.state "on") 4294967200 ()) 4294967500
          [StoreTS 4294967200; StoreState (State.state "on");
           Dispatch "update_on"; Dispatch "update_on"; Dispatch "update_on"]).
Proof.
  destruct (blinker_dwell [100; 100; 100]%Z
              (changeState Blinker.attr "on" (Blinker.zeroed 4294967200)))
    as [Hon _].
  - repeat constructor; by vm_compute.
  - apply Hon; [reflexivity | by vm_compute].
Defined.

(** ** Pasted names *)




